(** * Coding-rules corpus: the demonstration programs with behaviour

A shallow embedding of the C++ demonstration programs of the corpus that
compute something:

    - [rules/rule_60/good_example.cpp], namespace [module_a]:
      [processData], [getRequiredBufferSize] and the class [SafeContainer];
    - [rules/rule_63/good_example.cpp] (unnamed namespace) and its
      [static]-keyword sibling: [mylib::processData] and [mylib::cacheData]
      over a file-local logger and cache.

Conventions.
- [size_t] is a 64-bit unsigned integer: a value of [N] below [2^64],
  with the wrap-around of [+] written out ([size_t_wrap]).
- [char] is a byte ([ascii]); memory reachable from a [char*] is the
  list of bytes that starts at the pointer and ends with its object.
- A result [None] stands for undefined behaviour (a read or write
  outside an object, a null dereference).
- [operator new] is taken to succeed. *)

From Stdlib Require Import Ascii String.
From stdpp Require Import base decidable option list numbers strings pretty gmap.

Local Open Scope N_scope.

(** ** Machine integers *)

Definition SIZE_MAX : N := 2 ^ 64 - 1.

Definition size_t_wrap (n : N) : N := n mod (SIZE_MAX + 1).

(** ** [<cstring>] and [<cctype>] over byte lists *)

Definition NUL : ascii := Ascii.zero.

(** [std::strlen]: the number of bytes before the first NUL; reading past the
    end of the object without meeting one is undefined. An object has at
    most [SIZE_MAX] bytes, so the count is a [size_t] as it stands. *)
Fixpoint strlen (p : list ascii) : option N :=
  match p with
  | [] => None
  | c :: p' => if decide (c = NUL) then Some 0 else N.succ <$> strlen p'
  end.

(** [std::strcpy (dst + i, src)]: bytes are copied up to and including the
    terminating NUL; a write outside [dst] is undefined. *)
Fixpoint strcpy_at (i : nat) (dst src : list ascii) : option (list ascii) :=
  match src with
  | [] => None
  | c :: src' =>
      if decide (i < length dst)%nat then
        if decide (c = NUL) then Some (<[i := c]> dst)
        else strcpy_at (S i) (<[i := c]> dst) src'
      else None
  end.

Definition strcpy (dst src : list ascii) : option (list ascii) :=
  strcpy_at 0 dst src.

(** [std::toupper] in the "C" locale, the locale of a program that never calls
    [setlocale]: the 26 lower-case letters go to upper case, every other byte
    is returned as it is. *)
Definition toupper_C (c : ascii) : ascii :=
  let n := N_of_ascii c in
  if decide (97 <= n <= 122) then ascii_of_N (n - 32) else c.

Module module_a.

Section ProcessData.

(** The case mapping of the current locale. *)
Variable toupper : ascii -> ascii.

(** The loop [for (size_t i = 0; i < inputLen; ++i)
    outputBuffer[i] = std::toupper(outputBuffer[i]);] with [count]
    iterations left, the next one at index [i]. *)
Fixpoint upcase_loop (count i : nat) (outputBuffer : list ascii)
  : option (list ascii) :=
  match count with
  | O => Some outputBuffer
  | S count' =>
      c ← outputBuffer !! i;
      upcase_loop count' (S i) (<[i := toupper c]> outputBuffer)
  end.

(** [bool processData(char* outputBuffer, size_t bufferSize,
    const char* input)]: the return value and the caller's buffer
    afterwards. The buffer and the input are two objects: [strcpy] between
    overlapping ones is undefined. *)
Definition processData (outputBuffer : list ascii) (bufferSize : N)
    (input : list ascii) : option (bool * list ascii) :=
  inputLen ← strlen input;
  if decide (bufferSize <= inputLen) then Some (false, outputBuffer)
  else
    copied ← strcpy outputBuffer input;
    upper ← upcase_loop (N.to_nat inputLen) 0 copied;
    Some (true, upper).

End ProcessData.

(** [size_t getRequiredBufferSize(const char* input)]. *)
Definition getRequiredBufferSize (input : list ascii) : option N :=
  inputLen ← strlen input;
  Some (size_t_wrap (inputLen + 1)).

(** *** [class SafeContainer] *)

Module SafeContainer.

(** The two data members: [int* data_] ([None] is [nullptr], [Some arr] a
    pointer to the array [arr]) and [size_t size_]. *)
Record t : Type := Build { data_ : option (list Z); size_ : N }.

(** [new int[size]]: [size] elements of indeterminate value, [garbage k]
    being what the fresh storage happens to hold at index [k]. *)
Definition new_int_array (garbage : nat -> Z) (size : N) : list Z :=
  garbage <$> seq 0 (N.to_nat size).

(** The constructor's loop [for (size_t i = 0; i < size_; ++i)
    data_[i] = 0;] with [count] iterations left. *)
Fixpoint zero_loop (count i : nat) (arr : list Z) : option (list Z) :=
  match count with
  | O => Some arr
  | S count' =>
      if decide (i < length arr)%nat
      then zero_loop count' (S i) (<[i := 0%Z]> arr)
      else None
  end.

(** [SafeContainer(size_t size)]. *)
Definition construct (garbage : nat -> Z) (size : N) : option t :=
  arr ← zero_loop (N.to_nat size) 0 (new_int_array garbage size);
  Some (Build (Some arr) size).

(** [SafeContainer(SafeContainer&& other)]: the new object, and [other] as
    the constructor leaves it. *)
Definition move_construct (other : t) : t * t :=
  (Build (data_ other) (size_ other), Build None 0).

(** [void set(size_t index, int value)]. *)
Definition set (index : N) (value : Z) (c : t) : option t :=
  if decide (index < size_ c) then
    arr ← data_ c;
    if decide (N.to_nat index < length arr)%nat
    then Some (Build (Some (<[N.to_nat index := value]> arr)) (size_ c))
    else None
  else Some c.

(** [int get(size_t index) const]. *)
Definition get (index : N) (c : t) : option Z :=
  if decide (index < size_ c) then
    arr ← data_ c;
    arr !! N.to_nat index
  else Some 0%Z.

(** [size_t size() const]. *)
Definition size (c : t) : N := size_ c.

(** The class invariant: [data_] is null and [size_] is 0, or [data_] points
    to an array of exactly [size_] elements. *)
Definition invariant (c : t) : Prop :=
  match data_ c with
  | Some arr => length arr = N.to_nat (size_ c)
  | None => size_ c = 0
  end.

(** A client that calls [set(index, value)] for each pair of [ops], in
    order. *)
Fixpoint set_all (ops : list (N * Z)) (c : t) : option t :=
  match ops with
  | [] => Some c
  | (index, value) :: ops' => c' ← set index value c; set_all ops' c'
  end.

End SafeContainer.

End module_a.

Definition bytes (s : string) : list ascii := list_ascii_of_string s.

(** ** Rule 63: internal linkage, two ways

Both translation units keep the same file-local state: a stateless
[Logger] that writes to [std::cout], and the vector [cache]. A value of
[globals] is the text written to [std::cout] so far together with the
vector. *)

(** The newline character written as ["\n"] in the sources. *)
Definition endl : string := String "010"%char EmptyString.

(** [std::to_string(int)]. *)
Definition to_string (i : Z) : string := pretty i.

(** *** [rules/rule_63/good_example.cpp]: unnamed namespace *)

Module unnamed_ns.

Record CacheEntry : Type :=
  { key : string; value : string; timestamp : Z }.

Record globals : Type := { cout : string; cache : list CacheEntry }.

Definition initial : globals := {| cout := ""; cache := [] |}.

(** [Logger::log], called on the file-local [logger]. *)
Definition Logger_log (message : string) (g : globals) : globals :=
  {| cout := cout g +:+ "[LOG] " +:+ message +:+ endl; cache := cache g |}.

Definition isValidInput (input : string) : bool :=
  negb (bool_decide (input = "")) && bool_decide (String.length input < 100)%nat.

Definition MAX_RETRIES : Z := 3.

Definition logError (error : string) (g : globals) : globals :=
  Logger_log ("ERROR: " +:+ error) g.

Module mylib.

(** [for (int i = 0; i < MAX_RETRIES; ++i)
    logger.log("Attempt " + std::to_string(i + 1));] with [count]
    iterations left. [i] stays below [MAX_RETRIES], far from where [int]
    arithmetic would overflow. *)
Fixpoint attempt_loop (count : nat) (i : Z) (g : globals) : globals :=
  match count with
  | O => g
  | S count' =>
      attempt_loop count' (i + 1)%Z
        (Logger_log ("Attempt " +:+ to_string (i + 1)) g)
  end.

Definition processData (data : string) (g : globals) : globals :=
  if negb (isValidInput data) then logError "Invalid input" g
  else
    attempt_loop (Z.to_nat (MAX_RETRIES - 0)) 0
      (Logger_log ("Processing: " +:+ data) g).

Definition cacheData (key value : string) (g : globals) : globals :=
  let entry := {| key := key; value := value; timestamp := 0 |} in
  Logger_log ("Cached: " +:+ key)
    {| cout := cout g; cache := cache g ++ [entry] |}.

End mylib.

Definition main : globals :=
  mylib.cacheData "key1" "value1" (mylib.processData "test data" initial).

End unnamed_ns.

(** *** The [static]-keyword sibling of the same translation unit *)

Module static_kw.

Record CacheEntry : Type :=
  { key : string; value : string; timestamp : Z }.

Record globals : Type := { cout : string; cache : list CacheEntry }.

Definition initial : globals := {| cout := ""; cache := [] |}.

Definition Logger_log (message : string) (g : globals) : globals :=
  {| cout := cout g +:+ "[LOG] " +:+ message +:+ endl; cache := cache g |}.

Definition isValidInput (input : string) : bool :=
  negb (bool_decide (input = "")) && bool_decide (String.length input < 100)%nat.

Definition MAX_RETRIES : Z := 3.

Definition logError (error : string) (g : globals) : globals :=
  Logger_log ("ERROR: " +:+ error) g.

Module mylib.

Fixpoint attempt_loop (count : nat) (i : Z) (g : globals) : globals :=
  match count with
  | O => g
  | S count' =>
      attempt_loop count' (i + 1)%Z
        (Logger_log ("Attempt " +:+ to_string (i + 1)) g)
  end.

Definition processData (data : string) (g : globals) : globals :=
  if negb (isValidInput data) then logError "Invalid input" g
  else
    attempt_loop (Z.to_nat (MAX_RETRIES - 0)) 0
      (Logger_log ("Processing: " +:+ data) g).

Definition cacheData (key value : string) (g : globals) : globals :=
  let entry := {| key := key; value := value; timestamp := 0 |} in
  Logger_log ("Cached: " +:+ key)
    {| cout := cout g; cache := cache g ++ [entry] |}.

End mylib.

Definition main : globals :=
  mylib.cacheData "key1" "value1" (mylib.processData "test data" initial).

End static_kw.

(** *** Clients of the [mylib] interface *)

(** One call of the public interface. *)
Inductive mylib_call : Type :=
  | CallProcessData (data : string)
  | CallCacheData (key value : string).

Definition unnamed_step (g : unnamed_ns.globals) (c : mylib_call)
  : unnamed_ns.globals :=
  match c with
  | CallProcessData data => unnamed_ns.mylib.processData data g
  | CallCacheData key value => unnamed_ns.mylib.cacheData key value g
  end.

Definition static_step (g : static_kw.globals) (c : mylib_call)
  : static_kw.globals :=
  match c with
  | CallProcessData data => static_kw.mylib.processData data g
  | CallCacheData key value => static_kw.mylib.cacheData key value g
  end.

(** A history: the calls in the order they are made. *)
Definition unnamed_run (calls : list mylib_call) (g : unnamed_ns.globals)
  : unnamed_ns.globals := foldl unnamed_step g calls.

Definition static_run (calls : list mylib_call) (g : static_kw.globals)
  : static_kw.globals := foldl static_step g calls.

(** The two programs' cache entries, compared field by field. *)
Definition same_entry (e : unnamed_ns.CacheEntry) (e' : static_kw.CacheEntry)
  : Prop :=
  unnamed_ns.key e = static_kw.key e'
  /\ unnamed_ns.value e = static_kw.value e'
  /\ unnamed_ns.timestamp e = static_kw.timestamp e'.

(** Identical log output and identical cache contents. *)
Definition same_observation (g : unnamed_ns.globals) (g' : static_kw.globals)
  : Prop :=
  unnamed_ns.cout g = static_kw.cout g'
  /\ Forall2 same_entry (unnamed_ns.cache g) (static_kw.cache g').

(** ** The other demonstration programs

    [int] is a 32-bit signed integer: a value of [Z] between [INT_MIN] and
    [INT_MAX]. Signed arithmetic does not wrap; a result outside that range
    is undefined. *)

Definition INT_MIN : Z := (- 2 ^ 31)%Z.

Definition INT_MAX : Z := (2 ^ 31 - 1)%Z.

(** The value of a signed expression whose mathematical result is [z]. *)
Definition int_result (z : Z) : option Z :=
  if decide (INT_MIN <= z <= INT_MAX)%Z then Some z else None.

(** [abs(int)]: undefined when the absolute value is not an [int]. *)
Definition int_abs (x : Z) : option Z := int_result (Z.abs x).

(** *** [rules/rule_60/good_example.cpp], example 3: [Resource] *)

Module module_a_resource.

(** [struct Resource { int id; char buffer[256]; }]. *)
Record Resource : Type := { id : Z; buffer : list ascii }.

Definition BUFFER_BYTES : nat := 256.

(** [std::sprintf(buffer, "Resource %d", id)]: the formatted text and a NUL
    are written from the start of [buffer]; a write past its end is
    undefined. *)
Definition sprintf_Resource (buffer : list ascii) (id : Z)
  : option (list ascii) :=
  strcpy buffer (bytes ("Resource " +:+ to_string id) ++ [NUL]).

(** [Resource* createResource(int id)]; [new Resource] leaves the members
    indeterminate, [garbage k] being byte [k] of the fresh [buffer]. *)
Definition createResource (garbage : nat -> ascii) (id : Z)
  : option Resource :=
  written ← sprintf_Resource (garbage <$> seq 0 BUFFER_BYTES) id;
  Some {| id := id; buffer := written |}.

End module_a_resource.

(** *** [rules/rule_61/user_impact.cpp] *)

Module usercode.

(** [int distance(int a, int b)]. *)
Definition distance (a b : Z) : option Z :=
  if decide (a > b)%Z then int_result (a - b) else int_result (b - a).

End usercode.

(** *** The using-directive translation unit kept with rule 62 *)

Module myapp.

(** [int distance(int a, int b) { return abs(a - b); }]. *)
Definition distance (a b : Z) : option Z :=
  d ← int_result (a - b);
  int_abs d.

End myapp.

(** *** [rules/rule_62/good_example.cpp], [example4::TextProcessor]

    A [StringPtr] is a [std::shared_ptr<std::string>]: null ([None]) or the
    address of a string that other owners may hold too. The strings live in
    a store from addresses to contents. *)

Module example4.

Abbreviation StringPtr := (option positive).

Abbreviation store := (gmap positive string).

(** The data member [std::vector<StringPtr> texts_]. *)
Record TextProcessor : Type := { texts_ : list StringPtr }.

Definition empty : TextProcessor := {| texts_ := [] |}.

(** [void addText(StringPtr text)]. *)
Definition addText (text : StringPtr) (tp : TextProcessor) : TextProcessor :=
  {| texts_ := texts_ tp ++ [text] |}.

(** The loop of [getAllTexts] over the pointers still to visit: [if (ptr)
    result.push_back( *ptr );]. Reading through an address that holds no
    string is undefined. *)
Fixpoint collect_texts (heap : store) (ptrs : list StringPtr)
    (result : list string) : option (list string) :=
  match ptrs with
  | [] => Some result
  | None :: ptrs' => collect_texts heap ptrs' result
  | Some address :: ptrs' =>
      text ← heap !! address;
      collect_texts heap ptrs' (result ++ [text])
  end.

(** [StringVector getAllTexts() const]. *)
Definition getAllTexts (heap : store) (tp : TextProcessor)
  : option (list string) :=
  collect_texts heap (texts_ tp) [].

(** Every pointer the processor holds is null or points to a string: what
    shared ownership guarantees. *)
Definition owned (heap : store) (tp : TextProcessor) : bool :=
  forallb (fun ptr : StringPtr =>
             match ptr with
             | Some address => bool_decide (is_Some (heap !! address))
             | None => true
             end) (texts_ tp).

(** What a pointer gives when it is visited: nothing for null, the string
    at its address otherwise. *)
Definition pointee (heap : store) (ptr : StringPtr) : option string :=
  address ← ptr; heap !! address.

End example4.

(** The cache entry a call of the [mylib] interface stores, when it stores
    one. *)
Definition cached_entry (c : mylib_call) : option unnamed_ns.CacheEntry :=
  match c with
  | CallProcessData _ => None
  | CallCacheData key value =>
      Some {| unnamed_ns.key := key; unnamed_ns.value := value;
              unnamed_ns.timestamp := 0 |}
  end.

(** * Properties *)

(** ** Sanity checks on concrete runs *)

Example processData_hello :
  module_a.processData toupper_C (replicate 12 "?"%char) 12
    (bytes "hello world" ++ [NUL])
  = Some (true, bytes "HELLO WORLD" ++ [NUL]).
Proof. vm_compute. reflexivity. Qed.

(** ** Byte-string helpers *)

Lemma strlen_c_string (s rest : list ascii) :
  NUL ∉ s -> strlen (s ++ NUL :: rest) = Some (N.of_nat (length s)).
Proof.
  induction s as [|c s IH]; intros Hnul; simpl.
  - done.
  - apply not_elem_of_cons in Hnul as [Hc Hs].
    rewrite decide_False by congruence.
    rewrite IH by done. simpl. f_equal. lia.
Qed.

Lemma strlen_lt_length (p : list ascii) (n : N) :
  strlen p = Some n -> (N.to_nat n < length p)%nat.
Proof.
  revert n. induction p as [|c p IH]; intros n; simpl; [done|].
  destruct (decide (c = NUL)).
  - intros [= <-]. lia.
  - destruct (strlen p) as [m|] eqn:Hm; simpl; [|done].
    intros [= <-]. specialize (IH m eq_refl). lia.
Qed.

(** [strcpy] seen through a split of the destination: [pre] is what lies
    before the write position, [mid] the bytes that get overwritten. *)
Lemma strcpy_at_split (s rest pre mid post : list ascii) :
  NUL ∉ s -> length mid = S (length s) ->
  strcpy_at (length pre) (pre ++ mid ++ post) (s ++ NUL :: rest)
  = Some (pre ++ (s ++ [NUL]) ++ post).
Proof.
  revert pre mid. induction s as [|c s IH]; intros pre mid Hnul Hlen;
    destruct mid as [|m mid]; simplify_eq/=.
  - destruct mid; [|done]. simpl.
    rewrite decide_True by (rewrite length_app; simpl; lia).
    by rewrite <- (Nat.add_0_r (length pre)), insert_app_r.
  - apply not_elem_of_cons in Hnul as [Hc Hs].
    rewrite decide_True by (rewrite length_app; simpl; lia).
    rewrite decide_False by congruence.
    rewrite <- (Nat.add_0_r (length pre)) at 2. rewrite insert_app_r. simpl.
    specialize (IH (pre ++ [c]) mid Hs ltac:(lia)).
    rewrite length_app, Nat.add_1_r in IH.
    rewrite <- !(assoc_L (++) pre [c]) in IH. simpl in IH. exact IH.
Qed.

Lemma strcpy_c_string (s rest dst : list ascii) :
  NUL ∉ s -> (length s < length dst)%nat ->
  strcpy dst (s ++ NUL :: rest)
  = Some (s ++ NUL :: drop (S (length s)) dst).
Proof.
  intros Hnul Hlen. unfold strcpy.
  rewrite <- (take_drop (S (length s)) dst) at 1.
  pose proof (strcpy_at_split s rest [] (take (S (length s)) dst)
                (drop (S (length s)) dst) Hnul) as H.
  simpl in H. rewrite H by (rewrite length_take; lia).
  by rewrite <- (assoc_L (++)).
Qed.

Lemma toupper_C_NUL (c : ascii) : toupper_C c = NUL -> c = NUL.
Proof.
  destruct c as [[] [] [] [] [] [] [] []]; vm_compute; congruence.
Qed.

Lemma NUL_not_in_toupper_C (s : list ascii) :
  NUL ∉ s -> NUL ∉ (toupper_C <$> s).
Proof.
  intros Hs [c [Hc Hin]]%list_elem_of_fmap.
  symmetry in Hc. apply toupper_C_NUL in Hc. by subst.
Qed.

(** Two byte strings that agree up to their first NUL are the same string. *)
Lemma c_string_prefix_inj (u1 u2 d1 d2 : list ascii) :
  NUL ∉ u1 -> NUL ∉ u2 -> u1 ++ NUL :: d1 = u2 ++ NUL :: d2 -> u1 = u2.
Proof.
  revert u2. induction u1 as [|a u1 IH]; intros [|b u2] H1 H2 Heq;
    simplify_eq/=; try done.
  - exfalso. apply H2. left.
  - exfalso. apply H1. left.
  - apply not_elem_of_cons in H1 as [_ H1].
    apply not_elem_of_cons in H2 as [_ H2].
    f_equal. by apply IH.
Qed.

(** ** [module_a::processData] and [module_a::getRequiredBufferSize] *)

Section ProcessDataFacts.

Variable toupper : ascii -> ascii.

Lemma upcase_loop_split (mid pre post : list ascii) :
  module_a.upcase_loop toupper (length mid) (length pre) (pre ++ mid ++ post)
  = Some (pre ++ (toupper <$> mid) ++ post).
Proof.
  revert pre. induction mid as [|m mid IH]; intros pre; simpl; [done|].
  rewrite list_lookup_middle by done. simpl.
  rewrite <- (Nat.add_0_r (length pre)) at 2. rewrite insert_app_r. simpl.
  specialize (IH (pre ++ [toupper m])).
  rewrite length_app, Nat.add_1_r in IH.
  by rewrite <- !(assoc_L (++) pre [toupper m]) in IH.
Qed.

(** The error path: the input does not fit, nothing is written. *)
Lemma processData_too_small (buf : list ascii) (n : N) (s rest : list ascii) :
  NUL ∉ s -> n <= N.of_nat (length s) ->
  module_a.processData toupper buf n (s ++ NUL :: rest) = Some (false, buf).
Proof.
  intros Hnul Hn. unfold module_a.processData.
  rewrite strlen_c_string by done. simpl. by rewrite decide_True.
Qed.

(** The success path: the upper-cased input, its NUL, and behind them the
    bytes of the buffer that were not reached. *)
Lemma processData_fits (buf : list ascii) (n : N) (s rest : list ascii) :
  NUL ∉ s -> N.of_nat (length s) < n -> n <= N.of_nat (length buf) ->
  module_a.processData toupper buf n (s ++ NUL :: rest)
  = Some (true, (toupper <$> s) ++ NUL :: drop (S (length s)) buf).
Proof.
  intros Hnul Hn Hbuf. unfold module_a.processData.
  rewrite strlen_c_string by done. simpl.
  rewrite decide_False by lia.
  rewrite strcpy_c_string by (done || lia). simpl.
  rewrite Nat2N.id.
  pose proof (upcase_loop_split s [] (NUL :: drop (S (length s)) buf)) as H.
  simpl in H. by rewrite H.
Qed.

Lemma getRequiredBufferSize_c_string (s rest : list ascii) :
  NUL ∉ s -> N.of_nat (length s) < SIZE_MAX ->
  module_a.getRequiredBufferSize (s ++ NUL :: rest)
  = Some (N.of_nat (length s) + 1).
Proof.
  intros Hnul Hlen. unfold module_a.getRequiredBufferSize.
  rewrite strlen_c_string by done. simpl. f_equal.
  unfold size_t_wrap. apply N.mod_small. lia.
Qed.

End ProcessDataFacts.

(** C7. For every input string [s] and every buffer size [n],
    [module_a::processData(buffer, n, s)] returns, and it returns [false]
    exactly when [strlen(s) >= n]; when it returns [false] the caller's
    buffer is unchanged. The buffer handed in has at least the [n] bytes
    the caller announces. *)
Theorem processData_false_iff_too_small
    (toupper : ascii -> ascii) (buf : list ascii) (n : N)
    (s rest : list ascii) :
  NUL ∉ s -> n <= N.of_nat (length buf) ->
  exists (len : N) (ok : bool) (buf' : list ascii),
    strlen (s ++ NUL :: rest) = Some len
    /\ module_a.processData toupper buf n (s ++ NUL :: rest) = Some (ok, buf')
    /\ (ok = false <-> len >= n)
    /\ (ok = false -> buf' = buf).
Proof.
  intros Hnul Hbuf. exists (N.of_nat (length s)).
  destruct (decide (n <= N.of_nat (length s))) as [Hsmall|Hfits].
  - exists false, buf. split; [by apply strlen_c_string|].
    split; [by apply processData_too_small|].
    split; [split; [lia|done]|done].
  - eexists true, _. split; [by apply strlen_c_string|].
    split; [apply processData_fits; (done || lia)|].
    split; [split; [done|lia]|done].
Qed.

Lemma processData_false_iff_too_small_witness :
  exists (len : N) (ok : bool) (buf' : list ascii),
    strlen (bytes "hello" ++ NUL :: []) = Some len
    /\ module_a.processData toupper_C (bytes "????") 4
         (bytes "hello" ++ NUL :: []) = Some (ok, buf')
    /\ (ok = false <-> len >= 4)
    /\ (ok = false -> buf' = bytes "????").
Proof.
  apply (processData_false_iff_too_small toupper_C (bytes "????") 4
           (bytes "hello") []); compute_done.
Defined.

(** C8. For every input string [s], [module_a::getRequiredBufferSize(s)]
    returns a size, and [module_a::processData] called with a buffer of that
    size returns [true] and leaves in the buffer exactly the characters of
    [s] mapped through [std::toupper], followed by the terminating NUL. *)
Theorem processData_required_size_uppercases
    (toupper : ascii -> ascii) (s rest : list ascii) :
  NUL ∉ s -> N.of_nat (length s) < SIZE_MAX ->
  exists size : N,
    module_a.getRequiredBufferSize (s ++ NUL :: rest) = Some size
    /\ forall buf : list ascii,
         N.of_nat (length buf) = size ->
         module_a.processData toupper buf size (s ++ NUL :: rest)
         = Some (true, (toupper <$> s) ++ [NUL]).
Proof.
  intros Hnul Hmax. eexists. split; [by apply getRequiredBufferSize_c_string|].
  intros buf Hbuf.
  rewrite processData_fits by (done || lia).
  by rewrite drop_ge by lia.
Qed.

Lemma processData_required_size_uppercases_witness :
  exists size : N,
    module_a.getRequiredBufferSize (bytes "hello world" ++ NUL :: []) = Some size
    /\ forall buf : list ascii,
         N.of_nat (length buf) = size ->
         module_a.processData toupper_C buf size (bytes "hello world" ++ NUL :: [])
         = Some (true, (toupper_C <$> bytes "hello world") ++ [NUL]).
Proof.
  apply (processData_required_size_uppercases toupper_C
           (bytes "hello world") []); compute_done.
Defined.

(** C2, as the code has it. The law the claim denies holds: for every input
    string [s], [processData] called with a buffer whose size is
    [getRequiredBufferSize(s)] returns [true]. *)
Theorem processData_required_size_succeeds
    (toupper : ascii -> ascii) (s rest : list ascii) :
  NUL ∉ s -> N.of_nat (length s) < SIZE_MAX ->
  exists size : N,
    module_a.getRequiredBufferSize (s ++ NUL :: rest) = Some size
    /\ forall buf : list ascii,
         N.of_nat (length buf) = size ->
         fst <$> module_a.processData toupper buf size (s ++ NUL :: rest)
         = Some true.
Proof.
  intros Hnul Hmax. eexists. split; [by apply getRequiredBufferSize_c_string|].
  intros buf Hbuf. by rewrite processData_fits by (done || lia).
Qed.

Lemma processData_required_size_succeeds_witness :
  exists size : N,
    module_a.getRequiredBufferSize (bytes "ok" ++ NUL :: bytes "junk") = Some size
    /\ forall buf : list ascii,
         N.of_nat (length buf) = size ->
         fst <$> module_a.processData toupper_C buf size
                   (bytes "ok" ++ NUL :: bytes "junk")
         = Some true.
Proof.
  apply (processData_required_size_succeeds toupper_C (bytes "ok")
           (bytes "junk")); compute_done.
Defined.

(** C2, refuted as stated: it is not the case that the law fails. *)
Lemma required_size_law_not_refutable :
  ~ ~ (forall (toupper : ascii -> ascii) (s rest buf : list ascii),
         NUL ∉ s -> N.of_nat (length s) < SIZE_MAX ->
         module_a.getRequiredBufferSize (s ++ NUL :: rest)
         = Some (N.of_nat (length buf)) ->
         fst <$> module_a.processData toupper buf (N.of_nat (length buf))
                   (s ++ NUL :: rest)
         = Some true).
Proof.
  intros Hno. apply Hno. intros toupper s rest buf Hnul Hmax Hsize.
  rewrite getRequiredBufferSize_c_string in Hsize by done.
  injection Hsize as Hsize.
  by rewrite processData_fits by (done || lia).
Qed.

(** C4, as the code has it. [module_a::processData] returns a success
    indicator fixed by a condition on its inputs alone: it is [true] exactly
    when [strlen(input) < bufferSize], whatever the buffer holds and whatever
    the characters of the input are. *)
Theorem processData_result_decided_by_sizes
    (toupper : ascii -> ascii) (buf : list ascii) (n : N)
    (s rest : list ascii) :
  NUL ∉ s -> n <= N.of_nat (length buf) ->
  fst <$> module_a.processData toupper buf n (s ++ NUL :: rest)
  = Some (bool_decide (N.of_nat (length s) < n)).
Proof.
  intros Hnul Hbuf. case_bool_decide.
  - by rewrite processData_fits by done.
  - by rewrite processData_too_small by (done || lia).
Qed.

Lemma processData_result_decided_by_sizes_witness :
  fst <$> module_a.processData toupper_C (bytes "0123456789") 10
            (bytes "abc" ++ NUL :: [])
  = Some (bool_decide (N.of_nat (length (bytes "abc")) < 10)).
Proof.
  apply (processData_result_decided_by_sizes toupper_C (bytes "0123456789") 10
           (bytes "abc") []); compute_done.
Defined.

(** C4, refuted as stated: on the same input [processData] reports failure
    for a 5-byte buffer and success for a 6-byte one. *)
Lemma processData_reports_failure_and_success :
  module_a.processData toupper_C (bytes "?????") 5 (bytes "hello" ++ [NUL])
  = Some (false, bytes "?????")
  /\ module_a.processData toupper_C (bytes "??????") 6 (bytes "hello" ++ [NUL])
     = Some (true, bytes "HELLO" ++ [NUL]).
Proof. split; vm_compute; reflexivity. Qed.

(** C1, as the code has it. The output of [module_a::processData] is computed
    from its argument: in the "C" locale, an input that fits the buffer
    makes it return [true] and leaves in the buffer the upper-cased input,
    its NUL, and behind them the bytes the buffer held before. Hence two
    inputs that both fit leave the same bytes in the buffer exactly when
    their upper-case images are the same. *)
Theorem processData_output_follows_input
    (buf : list ascii) (n : N) (s1 rest1 s2 rest2 : list ascii) :
  NUL ∉ s1 -> NUL ∉ s2 ->
  N.of_nat (length s1) < n -> N.of_nat (length s2) < n ->
  n <= N.of_nat (length buf) ->
  exists out1 out2 : list ascii,
    module_a.processData toupper_C buf n (s1 ++ NUL :: rest1) = Some (true, out1)
    /\ module_a.processData toupper_C buf n (s2 ++ NUL :: rest2) = Some (true, out2)
    /\ out1 = (toupper_C <$> s1) ++ NUL :: drop (S (length s1)) buf
    /\ out2 = (toupper_C <$> s2) ++ NUL :: drop (S (length s2)) buf
    /\ (out1 = out2 <-> toupper_C <$> s1 = toupper_C <$> s2).
Proof.
  intros Hnul1 Hnul2 Hn1 Hn2 Hbuf. eexists _, _.
  split; [apply processData_fits; assumption|].
  split; [apply processData_fits; assumption|].
  split; [reflexivity|]. split; [reflexivity|].
  split.
  - intros Heq. eapply c_string_prefix_inj; [| |exact Heq];
      by apply NUL_not_in_toupper_C.
  - intros Heq. rewrite Heq.
    apply (f_equal length) in Heq. rewrite !length_fmap in Heq.
    by rewrite Heq.
Qed.

Lemma processData_output_follows_input_witness :
  exists out1 out2 : list ascii,
    module_a.processData toupper_C (bytes "????") 4 (bytes "ab" ++ NUL :: [])
    = Some (true, out1)
    /\ module_a.processData toupper_C (bytes "????") 4 (bytes "Ab" ++ NUL :: [])
       = Some (true, out2)
    /\ out1 = (toupper_C <$> bytes "ab") ++ NUL
              :: drop (S (length (bytes "ab"))) (bytes "????")
    /\ out2 = (toupper_C <$> bytes "Ab") ++ NUL
              :: drop (S (length (bytes "Ab"))) (bytes "????")
    /\ (out1 = out2 <-> toupper_C <$> bytes "ab" = toupper_C <$> bytes "Ab").
Proof.
  apply (processData_output_follows_input (bytes "????") 4
           (bytes "ab") [] (bytes "Ab") []); compute_done.
Defined.

(** C1, refuted as stated: two inputs, two different outputs. *)
Lemma processData_output_varies :
  module_a.processData toupper_C (bytes "???") 3 (bytes "ab" ++ [NUL])
  = Some (true, bytes "AB" ++ [NUL])
  /\ module_a.processData toupper_C (bytes "???") 3 (bytes "cd" ++ [NUL])
     = Some (true, bytes "CD" ++ [NUL])
  /\ bytes "AB" ++ [NUL] <> bytes "CD" ++ [NUL].
Proof.
  split; [vm_compute; reflexivity|].
  split; [vm_compute; reflexivity|].
  vm_compute. discriminate.
Qed.

(** ** [module_a::SafeContainer] *)

Import module_a.

Lemma zero_loop_split (mid pre post : list Z) :
  SafeContainer.zero_loop (length mid) (length pre) (pre ++ mid ++ post)
  = Some (pre ++ replicate (length mid) 0%Z ++ post).
Proof.
  revert pre. induction mid as [|m mid IH]; intros pre; simpl; [done|].
  rewrite decide_True by (rewrite length_app; simpl; lia).
  rewrite <- (Nat.add_0_r (length pre)) at 2. rewrite insert_app_r. simpl.
  specialize (IH (pre ++ [0%Z])).
  rewrite length_app, Nat.add_1_r in IH.
  by rewrite <- !(assoc_L (++) pre [0%Z]) in IH.
Qed.

(** Construction succeeds and leaves [size] zeroes, whatever the fresh
    storage held. *)
Lemma construct_zeroes (garbage : nat -> Z) (size : N) :
  SafeContainer.construct garbage size
  = Some (SafeContainer.Build (Some (replicate (N.to_nat size) 0%Z)) size).
Proof.
  unfold SafeContainer.construct.
  pose proof (zero_loop_split (SafeContainer.new_int_array garbage size) [] [])
    as H.
  assert (length (SafeContainer.new_int_array garbage size) = N.to_nat size)
    as Hlen by (unfold SafeContainer.new_int_array;
                by rewrite length_fmap, length_seq).
  rewrite Hlen in H. simpl in H. rewrite !app_nil_r in H.
  by rewrite H.
Qed.

Lemma construct_invariant (garbage : nat -> Z) (size : N) :
  exists c, SafeContainer.construct garbage size = Some c
            /\ SafeContainer.invariant c.
Proof.
  eexists. split; [apply construct_zeroes|].
  unfold SafeContainer.invariant. simpl. apply length_replicate.
Qed.

Lemma set_invariant (index : N) (value : Z) (c : SafeContainer.t) :
  SafeContainer.invariant c ->
  exists c', SafeContainer.set index value c = Some c'
             /\ SafeContainer.invariant c'.
Proof.
  destruct c as [[arr|] n]; unfold SafeContainer.invariant, SafeContainer.set;
    simpl; intros Hinv.
  - destruct (decide (index < n)); [|by eexists].
    rewrite decide_True by lia. eexists. split; [done|].
    simpl. by rewrite length_insert.
  - subst n. rewrite decide_False by lia. by eexists.
Qed.

Lemma get_invariant (index : N) (c : SafeContainer.t) :
  SafeContainer.invariant c -> is_Some (SafeContainer.get index c).
Proof.
  destruct c as [[arr|] n]; unfold SafeContainer.invariant, SafeContainer.get;
    simpl; intros Hinv.
  - destruct (decide (index < n)); [|done].
    apply lookup_lt_is_Some. lia.
  - subst n. by rewrite decide_False by lia.
Qed.

Lemma move_construct_invariant (other : SafeContainer.t) :
  SafeContainer.invariant other ->
  SafeContainer.invariant (SafeContainer.move_construct other).1
  /\ SafeContainer.invariant (SafeContainer.move_construct other).2.
Proof. intros Hinv. split; [by destruct other|done]. Qed.

Lemma invariant_excludes_some_state :
  ~ SafeContainer.invariant (SafeContainer.Build None 1).
Proof. unfold SafeContainer.invariant. simpl. lia. Qed.

Lemma set_all_array (ops : list (N * Z)) (arr : list Z) (n : N) :
  length arr = N.to_nat n ->
  exists arr',
    SafeContainer.set_all ops (SafeContainer.Build (Some arr) n)
    = Some (SafeContainer.Build (Some arr') n)
    /\ length arr' = N.to_nat n.
Proof.
  revert arr. induction ops as [|[index value] ops IH]; intros arr Hlen; simpl.
  - by exists arr.
  - unfold SafeContainer.set. simpl.
    destruct (decide (index < n)).
    + rewrite decide_True by lia. simpl.
      apply IH. by rewrite length_insert.
    + simpl. by apply IH.
Qed.

(** C3, as the code has it. [SafeContainer] maintains an invariant relating
    its pointer and its stored size: [data_] is null with [size_ = 0], or
    [data_] points to exactly [size_] elements. It holds after construction
    and is preserved by [set], by [get] (which is [const] and always returns)
    and by move construction, for the new object and for the moved-from
    one. *)
Theorem SafeContainer_invariant_maintained :
  (forall (garbage : nat -> Z) (size : N),
      exists c, SafeContainer.construct garbage size = Some c
                /\ SafeContainer.invariant c)
  /\ (forall (index : N) (value : Z) (c : SafeContainer.t),
         SafeContainer.invariant c ->
         exists c', SafeContainer.set index value c = Some c'
                    /\ SafeContainer.invariant c')
  /\ (forall (index : N) (c : SafeContainer.t),
         SafeContainer.invariant c -> is_Some (SafeContainer.get index c))
  /\ (forall other : SafeContainer.t,
         SafeContainer.invariant other ->
         SafeContainer.invariant (SafeContainer.move_construct other).1
         /\ SafeContainer.invariant (SafeContainer.move_construct other).2).
Proof.
  split; [exact construct_invariant|].
  split; [exact set_invariant|].
  split; [exact get_invariant|exact move_construct_invariant].
Qed.

(** C3, refuted as stated: there is a predicate on the state of
    [SafeContainer], false of some states, that holds after construction and
    is preserved by [set], [get] and move construction. *)
Lemma SafeContainer_some_invariant_exists :
  exists Inv : SafeContainer.t -> Prop,
    (exists c, ~ Inv c)
    /\ (forall (garbage : nat -> Z) (size : N),
           exists c, SafeContainer.construct garbage size = Some c /\ Inv c)
    /\ (forall (index : N) (value : Z) (c : SafeContainer.t),
           Inv c ->
           exists c', SafeContainer.set index value c = Some c' /\ Inv c')
    /\ (forall (index : N) (c : SafeContainer.t),
           Inv c -> is_Some (SafeContainer.get index c))
    /\ (forall other : SafeContainer.t,
           Inv other ->
           Inv (SafeContainer.move_construct other).1
           /\ Inv (SafeContainer.move_construct other).2).
Proof.
  exists SafeContainer.invariant.
  split; [eexists; exact invariant_excludes_some_state|].
  split; [exact construct_invariant|].
  split; [exact set_invariant|].
  split; [exact get_invariant|exact move_construct_invariant].
Qed.

(** C9. A [SafeContainer] constructed with size [n], after any calls of
    [set], holds an array [arr] of exactly [n] elements, and for every index
    [i]: when [i < n], [set(i, v)] replaces element [i] and nothing else and
    [get(i)] returns the stored element; when [i >= n], [set(i, v)] leaves
    the container unchanged and [get(i)] returns 0. Neither call is ever
    undefined, so neither reaches outside the [n] allocated elements. *)
Theorem SafeContainer_set_get_within_bounds
    (garbage : nat -> Z) (n : N) (ops : list (N * Z)) :
  exists arr : list Z,
    (SafeContainer.construct garbage n ≫= SafeContainer.set_all ops)
    = Some (SafeContainer.Build (Some arr) n)
    /\ length arr = N.to_nat n
    /\ forall (i : N) (v : Z),
         (i < n ->
          SafeContainer.set i v (SafeContainer.Build (Some arr) n)
          = Some (SafeContainer.Build (Some (<[N.to_nat i := v]> arr)) n)
          /\ exists x : Z,
               arr !! N.to_nat i = Some x
               /\ SafeContainer.get i (SafeContainer.Build (Some arr) n)
                  = Some x)
         /\ (n <= i ->
             SafeContainer.set i v (SafeContainer.Build (Some arr) n)
             = Some (SafeContainer.Build (Some arr) n)
             /\ SafeContainer.get i (SafeContainer.Build (Some arr) n)
                = Some 0%Z).
Proof.
  rewrite construct_zeroes. simpl.
  destruct (set_all_array ops (replicate (N.to_nat n) 0%Z) n) as (arr & Hrun & Hlen);
    [apply length_replicate|].
  exists arr. split; [done|]. split; [done|].
  intros i v. unfold SafeContainer.set, SafeContainer.get. simpl. split.
  - intros Hi. rewrite !decide_True by lia. split; [done|].
    destruct (lookup_lt_is_Some_2 arr (N.to_nat i)) as [x Hx]; [lia|].
    by exists x.
  - intros Hi. by rewrite !decide_False by lia.
Qed.

Example SafeContainer_main :
  (c ← SafeContainer.construct (fun k => Z.of_nat k + 7)%Z 10;
   c ← SafeContainer.set 0 100 c;
   SafeContainer.get 0 c) = Some 100%Z.
Proof. vm_compute. reflexivity. Qed.

(** ** Rule 63: the unnamed-namespace and the [static] translation units *)

Lemma string_append_assoc (a b c : string) : (a +:+ b) +:+ c = a +:+ b +:+ c.
Proof.
  induction a as [|x a IH]; [reflexivity|].
  change (String x ((a +:+ b) +:+ c) = String x (a +:+ b +:+ c)).
  by rewrite IH.
Qed.

Create HintDb rule63 discriminated.

Lemma Logger_log_same (message : string)
    (g : unnamed_ns.globals) (g' : static_kw.globals) :
  same_observation g g' ->
  same_observation (unnamed_ns.Logger_log message g)
                   (static_kw.Logger_log message g').
Proof.
  intros [Hout Hcache]. split; simpl; [by rewrite Hout|done].
Qed.

Lemma logError_same (error : string)
    (g : unnamed_ns.globals) (g' : static_kw.globals) :
  same_observation g g' ->
  same_observation (unnamed_ns.logError error g) (static_kw.logError error g').
Proof. apply Logger_log_same. Qed.

Lemma attempt_loop_same (count : nat) (i : Z)
    (g : unnamed_ns.globals) (g' : static_kw.globals) :
  same_observation g g' ->
  same_observation (unnamed_ns.mylib.attempt_loop count i g)
                   (static_kw.mylib.attempt_loop count i g').
Proof.
  revert i g g'. induction count as [|count IH]; intros i g g' Hsame; simpl.
  - done.
  - apply IH. by apply Logger_log_same.
Qed.

#[local] Hint Resolve Logger_log_same logError_same attempt_loop_same : rule63.

Lemma isValidInput_same (input : string) :
  unnamed_ns.isValidInput input = static_kw.isValidInput input.
Proof. reflexivity. Qed.

Lemma processData_same (data : string)
    (g : unnamed_ns.globals) (g' : static_kw.globals) :
  same_observation g g' ->
  same_observation (unnamed_ns.mylib.processData data g)
                   (static_kw.mylib.processData data g').
Proof.
  intros Hsame.
  unfold unnamed_ns.mylib.processData, static_kw.mylib.processData.
  pose proof (isValidInput_same data) as Hvalid.
  destruct (unnamed_ns.isValidInput data), (static_kw.isValidInput data);
    try discriminate Hvalid; simpl; auto with rule63.
Qed.

Lemma cacheData_same (key value : string)
    (g : unnamed_ns.globals) (g' : static_kw.globals) :
  same_observation g g' ->
  same_observation (unnamed_ns.mylib.cacheData key value g)
                   (static_kw.mylib.cacheData key value g').
Proof.
  intros [Hout Hcache].
  unfold unnamed_ns.mylib.cacheData, static_kw.mylib.cacheData.
  apply Logger_log_same. split; simpl; [done|].
  apply Forall2_app; [done|]. by repeat constructor.
Qed.

#[local] Hint Resolve processData_same cacheData_same : rule63.

Lemma run_same (calls : list mylib_call)
    (g : unnamed_ns.globals) (g' : static_kw.globals) :
  same_observation g g' ->
  same_observation (unnamed_run calls g) (static_run calls g').
Proof.
  unfold unnamed_run, static_run.
  revert g g'. induction calls as [|c calls IH]; intros g g' Hsame; simpl.
  - done.
  - apply IH. destruct c; simpl; auto with rule63.
Qed.

(** C5. For every sequence of calls of [mylib::processData] and
    [mylib::cacheData] with the same arguments, the unnamed-namespace
    translation unit and the [static]-keyword one produce identical log
    output and identical cache contents. *)
Theorem unnamed_and_static_agree (calls : list mylib_call) :
  same_observation (unnamed_run calls unnamed_ns.initial)
                   (static_run calls static_kw.initial).
Proof. apply run_same. split; simpl; [done|constructor]. Qed.

Example unnamed_ns_main_output :
  unnamed_ns.cout unnamed_ns.main
  = "[LOG] Processing: test data" +:+ endl +:+ "[LOG] Attempt 1" +:+ endl
    +:+ "[LOG] Attempt 2" +:+ endl +:+ "[LOG] Attempt 3" +:+ endl
    +:+ "[LOG] Cached: key1" +:+ endl.
Proof. vm_compute. reflexivity. Qed.

(** What [processData] logs for [data]. *)
Lemma processData_text (data : string) :
  exists text : string,
    forall g : unnamed_ns.globals,
      unnamed_ns.cout (unnamed_ns.mylib.processData data g)
      = unnamed_ns.cout g +:+ text
      /\ unnamed_ns.cache (unnamed_ns.mylib.processData data g)
         = unnamed_ns.cache g.
Proof.
  unfold unnamed_ns.mylib.processData.
  destruct (unnamed_ns.isValidInput data); simpl.
  - eexists. intros g. split; [|done].
    by rewrite !string_append_assoc.
  - eexists. by intros g.
Qed.

(** C6, as the code has it. [mylib::cacheData] accumulates state: every call
    appends the entry [{key, value, 0}] to the file-local cache, whatever
    came before. What does not depend on the history is the text a call adds
    to the log, fixed by the arguments alone, for [cacheData] and for
    [processData]; [processData] leaves the cache as it is. *)
Theorem cacheData_appends_one_entry :
  (forall (key value : string) (g : unnamed_ns.globals),
      unnamed_ns.cache (unnamed_ns.mylib.cacheData key value g)
      = unnamed_ns.cache g
        ++ [ {| unnamed_ns.key := key; unnamed_ns.value := value;
                unnamed_ns.timestamp := 0 |} ]
      /\ unnamed_ns.cout (unnamed_ns.mylib.cacheData key value g)
         = unnamed_ns.cout g +:+ "[LOG] Cached: " +:+ key +:+ endl)
  /\ (forall data : string,
         exists text : string,
           forall g : unnamed_ns.globals,
             unnamed_ns.cout (unnamed_ns.mylib.processData data g)
             = unnamed_ns.cout g +:+ text
             /\ unnamed_ns.cache (unnamed_ns.mylib.processData data g)
                = unnamed_ns.cache g).
Proof.
  split; [|exact processData_text].
  intros key value g. by split.
Qed.

(** C6, refuted as stated: the same call, after two different histories,
    leaves two different caches. *)
Lemma cacheData_depends_on_history :
  unnamed_ns.cache
    (unnamed_ns.mylib.cacheData "key1" "value1" unnamed_ns.initial)
  = [ {| unnamed_ns.key := "key1"; unnamed_ns.value := "value1";
         unnamed_ns.timestamp := 0 |} ]
  /\ unnamed_ns.cache
       (unnamed_ns.mylib.cacheData "key1" "value1"
          (unnamed_ns.mylib.cacheData "key1" "value1" unnamed_ns.initial))
     = [ {| unnamed_ns.key := "key1"; unnamed_ns.value := "value1";
            unnamed_ns.timestamp := 0 |};
         {| unnamed_ns.key := "key1"; unnamed_ns.value := "value1";
            unnamed_ns.timestamp := 0 |} ].
Proof. split; reflexivity. Qed.

(** * Further properties of the programs *)

(** ** [module_a::SafeContainer], continued *)

(** X1. A freshly constructed container reads 0 at every index, inside or
    outside its size, whatever the allocated storage held before. *)
Theorem SafeContainer_fresh_reads_zero
    (garbage : nat -> Z) (n index : N) :
  (SafeContainer.construct garbage n ≫= SafeContainer.get index) = Some 0%Z.
Proof.
  rewrite construct_zeroes. simpl. unfold SafeContainer.get. simpl.
  destruct (decide (index < n)); [|done].
  simpl. apply lookup_replicate_2. lia.
Qed.

(** X2. On a container that satisfies the class invariant, [set] at an index
    below the size is read back by [get] at that index, changes what [get]
    returns at no other index, and keeps the size. *)
Theorem SafeContainer_set_then_get
    (index : N) (value : Z) (c : SafeContainer.t) :
  SafeContainer.invariant c -> index < SafeContainer.size c ->
  exists c' : SafeContainer.t,
    SafeContainer.set index value c = Some c'
    /\ SafeContainer.get index c' = Some value
    /\ SafeContainer.size c' = SafeContainer.size c
    /\ forall other : N,
         other <> index ->
         SafeContainer.get other c' = SafeContainer.get other c.
Proof.
  destruct c as [[arr|] n];
    unfold SafeContainer.invariant, SafeContainer.size; simpl;
    intros Hinv Hindex; [|lia].
  unfold SafeContainer.set. simpl.
  rewrite !decide_True by lia. eexists. split; [done|].
  unfold SafeContainer.get. simpl.
  split; [|split; [done|]].
  - rewrite decide_True by lia. simpl.
    apply list_lookup_insert_eq. lia.
  - intros other Hother. destruct (decide (other < n)); [|done].
    simpl. apply list_lookup_insert_ne. lia.
Qed.

Lemma SafeContainer_set_then_get_witness :
  exists c' : SafeContainer.t,
    SafeContainer.set 1 42 (SafeContainer.Build (Some [7; 8; 9]%Z) 3) = Some c'
    /\ SafeContainer.get 1 c' = Some 42%Z
    /\ SafeContainer.size c'
       = SafeContainer.size (SafeContainer.Build (Some [7; 8; 9]%Z) 3)
    /\ forall other : N,
         other <> 1 ->
         SafeContainer.get other c'
         = SafeContainer.get other (SafeContainer.Build (Some [7; 8; 9]%Z) 3).
Proof.
  apply (SafeContainer_set_then_get 1 42
           (SafeContainer.Build (Some [7; 8; 9]%Z) 3)); compute_done.
Defined.

(** X3. Move construction hands everything over: the new container has the
    size of the source and answers every [get] as the source did, and the
    moved-from source is an empty container that is still safe to use: its
    size is 0, every [get] returns 0 and every [set] leaves it as it is. *)
Theorem SafeContainer_move_hands_over (other : SafeContainer.t) :
  SafeContainer.size (SafeContainer.move_construct other).1
  = SafeContainer.size other
  /\ (forall index : N,
         SafeContainer.get index (SafeContainer.move_construct other).1
         = SafeContainer.get index other)
  /\ SafeContainer.size (SafeContainer.move_construct other).2 = 0
  /\ (forall index : N,
         SafeContainer.get index (SafeContainer.move_construct other).2
         = Some 0%Z)
  /\ (forall (index : N) (value : Z),
         SafeContainer.set index value (SafeContainer.move_construct other).2
         = Some (SafeContainer.move_construct other).2).
Proof.
  destruct other as [data n]. simpl.
  split; [done|]. split; [done|]. split; [done|]. split.
  - intros index. unfold SafeContainer.get. simpl.
    by rewrite decide_False by lia.
  - intros index value. unfold SafeContainer.set. simpl.
    by rewrite decide_False by lia.
Qed.

(** X4. On a container that satisfies the class invariant, the last [set] at
    an index wins, and two [set]s at different indices give the same
    container in either order. *)
Theorem SafeContainer_set_overwrites_and_commutes
    (i j : N) (v w : Z) (c : SafeContainer.t) :
  SafeContainer.invariant c ->
  (SafeContainer.set i v c ≫= SafeContainer.set i w) = SafeContainer.set i w c
  /\ (i <> j ->
      (SafeContainer.set i v c ≫= SafeContainer.set j w)
      = (SafeContainer.set j w c ≫= SafeContainer.set i v)).
Proof.
  destruct c as [[arr|] n]; unfold SafeContainer.invariant; simpl; intros Hinv.
  - unfold SafeContainer.set. simpl. split.
    + destruct (decide (i < n)); simpl.
      * rewrite !decide_True by lia. simpl.
        rewrite !decide_True by (rewrite ?length_insert; lia).
        by rewrite list_insert_insert_eq.
      * by rewrite !decide_False by lia.
    + intros Hij.
      destruct (decide (i < n)), (decide (j < n)); simpl;
        rewrite ?decide_True by lia; simpl;
        rewrite ?decide_True by (rewrite ?length_insert; lia);
        rewrite ?decide_False by lia; simpl;
        rewrite ?decide_True by lia; simpl;
        rewrite ?decide_True by (rewrite ?length_insert; lia); try done.
      rewrite list_insert_insert_ne; [done|].
      intros Heq%N2Nat.inj. congruence.
  - subst n. unfold SafeContainer.set. simpl.
    rewrite !decide_False by lia. simpl.
    by rewrite !decide_False by lia.
Qed.

Lemma SafeContainer_set_overwrites_and_commutes_witness :
  (SafeContainer.set 0 5 (SafeContainer.Build (Some [7; 8; 9]%Z) 3)
     ≫= SafeContainer.set 0 6)
  = SafeContainer.set 0 6 (SafeContainer.Build (Some [7; 8; 9]%Z) 3)
  /\ (0 <> 2 ->
      (SafeContainer.set 0 5 (SafeContainer.Build (Some [7; 8; 9]%Z) 3)
         ≫= SafeContainer.set 2 6)
      = (SafeContainer.set 2 6 (SafeContainer.Build (Some [7; 8; 9]%Z) 3)
           ≫= SafeContainer.set 0 5)).
Proof.
  apply (SafeContainer_set_overwrites_and_commutes 0 2 5 6
           (SafeContainer.Build (Some [7; 8; 9]%Z) 3)); compute_done.
Defined.

(** ** [module_a::processData], continued *)

Lemma strcpy_at_overflow (s rest dst : list ascii) (i : nat) :
  NUL ∉ s -> (length dst <= i + length s)%nat ->
  strcpy_at i dst (s ++ NUL :: rest) = None.
Proof.
  revert i dst. induction s as [|c s IH]; intros i dst Hnul Hlen; simpl in *.
  - by rewrite decide_False by lia.
  - apply not_elem_of_cons in Hnul as [Hc Hs].
    destruct (decide (i < length dst)%nat); [|done].
    rewrite decide_False by congruence.
    apply IH; [done|]. rewrite length_insert. lia.
Qed.

Lemma toupper_C_idempotent (c : ascii) :
  toupper_C (toupper_C c) = toupper_C c.
Proof. destruct c as [[] [] [] [] [] [] [] []]; vm_compute; reflexivity. Qed.

(** X5. A successful [processData] writes the [strlen(input) + 1] bytes of
    the result and nothing else: the caller's buffer keeps its length, and
    every byte behind the terminating NUL is as it was. *)
Theorem processData_leaves_rest_of_buffer
    (toupper : ascii -> ascii) (buf : list ascii) (n : N)
    (s rest : list ascii) :
  NUL ∉ s -> N.of_nat (length s) < n -> n <= N.of_nat (length buf) ->
  exists out : list ascii,
    module_a.processData toupper buf n (s ++ NUL :: rest) = Some (true, out)
    /\ length out = length buf
    /\ drop (S (length s)) out = drop (S (length s)) buf.
Proof.
  intros Hnul Hn Hbuf. eexists. split; [by apply processData_fits|].
  split.
  - rewrite length_app, length_fmap. simpl. rewrite length_drop. lia.
  - rewrite (cons_middle NUL), (assoc_L (++)).
    apply drop_app_length'. rewrite length_app, length_fmap. simpl. lia.
Qed.

Lemma processData_leaves_rest_of_buffer_witness :
  exists out : list ascii,
    module_a.processData toupper_C (bytes "0123456789") 8
      (bytes "abc" ++ NUL :: []) = Some (true, out)
    /\ length out = length (bytes "0123456789")
    /\ drop (S (length (bytes "abc"))) out
       = drop (S (length (bytes "abc"))) (bytes "0123456789").
Proof.
  apply (processData_leaves_rest_of_buffer toupper_C (bytes "0123456789") 8
           (bytes "abc") []); compute_done.
Defined.

(** X6. In the "C" locale a successful [processData] leaves a C string as
    long as its input: [strlen] of the buffer afterwards is [strlen] of the
    input. *)
Theorem processData_keeps_strlen
    (buf : list ascii) (n : N) (s rest : list ascii) :
  NUL ∉ s -> N.of_nat (length s) < n -> n <= N.of_nat (length buf) ->
  exists out : list ascii,
    module_a.processData toupper_C buf n (s ++ NUL :: rest) = Some (true, out)
    /\ strlen out = strlen (s ++ NUL :: rest).
Proof.
  intros Hnul Hn Hbuf. eexists. split; [by apply processData_fits|].
  rewrite !strlen_c_string by (done || by apply NUL_not_in_toupper_C).
  by rewrite length_fmap.
Qed.

Lemma processData_keeps_strlen_witness :
  exists out : list ascii,
    module_a.processData toupper_C (bytes "0123456789") 8
      (bytes "a-z" ++ NUL :: bytes "tail") = Some (true, out)
    /\ strlen out = strlen (bytes "a-z" ++ NUL :: bytes "tail").
Proof.
  apply (processData_keeps_strlen (bytes "0123456789") 8
           (bytes "a-z") (bytes "tail")); compute_done.
Defined.

(** X7. In the "C" locale [processData] is idempotent on strings: feeding
    the buffer of a successful call back in as input, with any second buffer
    of the same announced size, succeeds and leaves the same string. *)
Theorem processData_idempotent
    (buf buf2 : list ascii) (n : N) (s rest : list ascii) :
  NUL ∉ s -> N.of_nat (length s) < n ->
  n <= N.of_nat (length buf) -> n <= N.of_nat (length buf2) ->
  exists out out2 : list ascii,
    module_a.processData toupper_C buf n (s ++ NUL :: rest) = Some (true, out)
    /\ module_a.processData toupper_C buf2 n out = Some (true, out2)
    /\ take (S (length s)) out2 = take (S (length s)) out.
Proof.
  intros Hnul Hn Hbuf Hbuf2. eexists _, _.
  split; [by apply processData_fits|].
  split.
  - apply processData_fits; [by apply NUL_not_in_toupper_C| |done].
    by rewrite length_fmap.
  - rewrite length_fmap, <- list_fmap_compose.
    rewrite (list_fmap_ext (toupper_C ∘ toupper_C) toupper_C s)
      by (intros; apply toupper_C_idempotent).
    rewrite !(cons_middle NUL), !(assoc_L (++)).
    rewrite !take_app_length'
      by (rewrite length_app, length_fmap; simpl; lia).
    done.
Qed.

Lemma processData_idempotent_witness :
  exists out out2 : list ascii,
    module_a.processData toupper_C (bytes "01234567") 8
      (bytes "Mixed" ++ NUL :: []) = Some (true, out)
    /\ module_a.processData toupper_C (bytes "abcdefghij") 8 out
       = Some (true, out2)
    /\ take (S (length (bytes "Mixed"))) out2
       = take (S (length (bytes "Mixed"))) out.
Proof.
  apply (processData_idempotent (bytes "01234567") (bytes "abcdefghij") 8
           (bytes "Mixed") []); compute_done.
Defined.

(** X8. [processData] trusts [bufferSize]: when the caller announces more
    bytes than the buffer has and the input passes the size check but does
    not fit the real buffer, the copy runs past the end of the buffer, which
    is undefined behaviour. *)
Theorem processData_overstated_size_overflows
    (toupper : ascii -> ascii) (buf : list ascii) (n : N)
    (s rest : list ascii) :
  NUL ∉ s -> N.of_nat (length s) < n -> (length buf <= length s)%nat ->
  module_a.processData toupper buf n (s ++ NUL :: rest) = None.
Proof.
  intros Hnul Hn Hbuf. unfold module_a.processData.
  rewrite strlen_c_string by done. simpl.
  rewrite decide_False by lia.
  unfold strcpy. by rewrite strcpy_at_overflow by (done || simpl; lia).
Qed.

Lemma processData_overstated_size_overflows_witness :
  module_a.processData toupper_C (bytes "1234") 100
    (bytes "hello" ++ NUL :: []) = None.
Proof.
  apply (processData_overstated_size_overflows toupper_C (bytes "1234") 100
           (bytes "hello") []); compute_done.
Defined.

(** X9. [getRequiredBufferSize] is exact: for every announced size [n] that
    the buffer really has, [processData] succeeds exactly when [n] is at
    least [getRequiredBufferSize(input)]. *)
Theorem getRequiredBufferSize_is_least_sufficient
    (toupper : ascii -> ascii) (buf : list ascii) (n : N)
    (s rest : list ascii) :
  NUL ∉ s -> N.of_nat (length s) < SIZE_MAX -> n <= N.of_nat (length buf) ->
  exists size : N,
    module_a.getRequiredBufferSize (s ++ NUL :: rest) = Some size
    /\ fst <$> module_a.processData toupper buf n (s ++ NUL :: rest)
       = Some (bool_decide (size <= n)).
Proof.
  intros Hnul Hmax Hbuf. eexists.
  split; [by apply getRequiredBufferSize_c_string|].
  case_bool_decide.
  - by rewrite processData_fits by (done || lia).
  - by rewrite processData_too_small by (done || lia).
Qed.

Lemma getRequiredBufferSize_is_least_sufficient_witness :
  exists size : N,
    module_a.getRequiredBufferSize (bytes "hello" ++ NUL :: []) = Some size
    /\ fst <$> module_a.processData toupper_C (bytes "12345") 5
                 (bytes "hello" ++ NUL :: [])
       = Some (bool_decide (size <= 5)).
Proof.
  apply (getRequiredBufferSize_is_least_sufficient toupper_C (bytes "12345") 5
           (bytes "hello") []); compute_done.
Defined.

(** ** [module_a::createResource] *)

Lemma bytes_append (a b : string) : bytes (a +:+ b) = bytes a ++ bytes b.
Proof.
  induction a as [|c a IH]; [reflexivity|].
  change (c :: bytes (a +:+ b) = c :: bytes a ++ bytes b). by rewrite IH.
Qed.

Lemma pretty_N_char_not_NUL (x : N) : pretty_N_char x <> NUL.
Proof. unfold pretty_N_char. by repeat case_match. Qed.

Lemma pretty_N_go_no_NUL (x : N) (s : string) :
  NUL ∉ bytes s -> NUL ∉ bytes (pretty_N_go x s).
Proof.
  revert s. induction (N.lt_wf_0 x) as [x _ IH]; intros s Hs.
  destruct (decide (x = 0)) as [->|Hx]; [by rewrite pretty_N_go_0|].
  rewrite pretty_N_go_step by lia.
  apply IH; [apply N.div_lt; lia|].
  change (NUL ∉ (pretty_N_char (x `mod` 10) :: bytes s)).
  apply not_elem_of_cons. split; [|done].
  intros Heq. by apply (pretty_N_char_not_NUL (x `mod` 10)).
Qed.

(** A number below [10 ^ k] is printed with at most [k] digits. *)
Lemma pretty_N_go_length (k : nat) (x : N) (s : string) :
  x < 10 ^ N.of_nat k ->
  (length (bytes (pretty_N_go x s)) <= k + length (bytes s))%nat.
Proof.
  revert x s. induction k as [|k IH]; intros x s Hx.
  - assert (x = 0) as -> by (simpl in Hx; lia).
    rewrite pretty_N_go_0. lia.
  - destruct (decide (x = 0)) as [->|Hpos]; [rewrite pretty_N_go_0; lia|].
    rewrite pretty_N_go_step by lia.
    etrans; [apply IH|].
    + rewrite Nat2N.inj_succ, N.pow_succ_r' in Hx.
      apply N.Div0.div_lt_upper_bound. lia.
    + change (bytes (String (pretty_N_char (x `mod` 10)) s))
        with (pretty_N_char (x `mod` 10) :: bytes s).
      simpl. lia.
Qed.

(** The decimal text of an [int]: no NUL inside, at most 11 characters. *)
Lemma to_string_int (z : Z) :
  (INT_MIN <= z <= INT_MAX)%Z ->
  (NUL ∉ bytes (to_string z)) /\ (length (bytes (to_string z)) <= 11)%nat.
Proof.
  unfold INT_MIN, INT_MAX, to_string, pretty, pretty_Z. intros Hz.
  destruct z as [|p|p].
  - split; [compute_done|simpl; lia].
  - unfold pretty, pretty_positive, pretty, pretty_N.
    rewrite decide_False by done. split.
    + apply pretty_N_go_no_NUL. compute_done.
    + etrans; [apply (pretty_N_go_length 10)|simpl; lia].
      change (10 ^ N.of_nat 10) with 10000000000. lia.
  - unfold pretty, pretty_positive, pretty, pretty_N.
    rewrite decide_False by done. rewrite bytes_append. split.
    + apply not_elem_of_app. split; [compute_done|].
      apply pretty_N_go_no_NUL. compute_done.
    + rewrite length_app.
      etrans; [apply Nat.add_le_mono_l, (pretty_N_go_length 10)|simpl; lia].
      change (10 ^ N.of_nat 10) with 10000000000. lia.
Qed.

(** X10. For every [int id], [createResource] is defined: the text
    "Resource <id>" with its NUL takes at most 21 of the 256 bytes of
    [buffer], so [sprintf] never writes past the end. The resource returned
    carries [id], and its buffer, still 256 bytes, holds that text as a C
    string. *)
Theorem createResource_fits_buffer (garbage : nat -> ascii) (id : Z) :
  (INT_MIN <= id <= INT_MAX)%Z ->
  exists r : module_a_resource.Resource,
    module_a_resource.createResource garbage id = Some r
    /\ module_a_resource.id r = id
    /\ length (module_a_resource.buffer r) = module_a_resource.BUFFER_BYTES
    /\ (length (bytes ("Resource " +:+ to_string id)) <= 20)%nat
    /\ strlen (module_a_resource.buffer r)
       = Some (N.of_nat (length (bytes ("Resource " +:+ to_string id))))
    /\ take (length (bytes ("Resource " +:+ to_string id)))
         (module_a_resource.buffer r)
       = bytes ("Resource " +:+ to_string id).
Proof.
  intros Hid. destruct (to_string_int id Hid) as [Hnul Hlen].
  assert (NUL ∉ bytes ("Resource " +:+ to_string id)) as Hnul'.
  { rewrite bytes_append. apply not_elem_of_app. split; [compute_done|done]. }
  assert (length (bytes ("Resource " +:+ to_string id)) <= 20)%nat as Hlen'.
  { rewrite bytes_append, length_app. simpl. lia. }
  unfold module_a_resource.createResource, module_a_resource.sprintf_Resource.
  assert (length (garbage <$> seq 0 module_a_resource.BUFFER_BYTES)
          = module_a_resource.BUFFER_BYTES) as Hdst
    by (by rewrite length_fmap, length_seq).
  generalize dependent (garbage <$> seq 0 module_a_resource.BUFFER_BYTES).
  unfold module_a_resource.BUFFER_BYTES. intros dst Hdst.
  rewrite strcpy_c_string by (done || lia).
  eexists. split; [reflexivity|]. cbn [module_a_resource.id module_a_resource.buffer].
  split; [done|]. split.
  - rewrite length_app. cbn [length]. rewrite length_drop. lia.
  - split; [done|]. split.
    + by apply strlen_c_string.
    + by rewrite take_app_length.
Qed.

Lemma createResource_fits_buffer_witness :
  exists r : module_a_resource.Resource,
    module_a_resource.createResource (fun _ => "?"%char) 42 = Some r
    /\ module_a_resource.id r = 42%Z
    /\ length (module_a_resource.buffer r) = module_a_resource.BUFFER_BYTES
    /\ (length (bytes ("Resource " +:+ to_string 42)) <= 20)%nat
    /\ strlen (module_a_resource.buffer r)
       = Some (N.of_nat (length (bytes ("Resource " +:+ to_string 42))))
    /\ take (length (bytes ("Resource " +:+ to_string 42)))
         (module_a_resource.buffer r)
       = bytes ("Resource " +:+ to_string 42).
Proof.
  apply (createResource_fits_buffer (fun _ => "?"%char) 42). compute_done.
Defined.

Example createResource_42 :
  (fun r => take 12 (module_a_resource.buffer r))
    <$> module_a_resource.createResource (fun _ => "?"%char) 42
  = Some (bytes "Resource 42" ++ [NUL]).
Proof. vm_compute. reflexivity. Qed.

(** ** [mylib::processData] and [mylib::cacheData], continued *)

Lemma attempt_loop_cache (count : nat) (i : Z) (g : unnamed_ns.globals) :
  unnamed_ns.cache (unnamed_ns.mylib.attempt_loop count i g)
  = unnamed_ns.cache g.
Proof.
  revert i g. induction count as [|count IH]; intros i g; simpl; [done|].
  by rewrite IH.
Qed.

Lemma mylib_processData_cache (data : string) (g : unnamed_ns.globals) :
  unnamed_ns.cache (unnamed_ns.mylib.processData data g) = unnamed_ns.cache g.
Proof.
  unfold unnamed_ns.mylib.processData.
  destruct (negb _); [done|]. by rewrite attempt_loop_cache.
Qed.

(** X11. [mylib::processData] validates before it works: for an empty input
    or one of 100 characters or more it logs the single line
    "ERROR: Invalid input"; for any other input it logs "Processing: <data>"
    followed by "Attempt 1", "Attempt 2" and "Attempt 3". The cache is
    untouched either way. *)
Theorem mylib_processData_log (data : string) (g : unnamed_ns.globals) :
  unnamed_ns.cache (unnamed_ns.mylib.processData data g) = unnamed_ns.cache g
  /\ (data = "" \/ (100 <= String.length data)%nat ->
      unnamed_ns.cout (unnamed_ns.mylib.processData data g)
      = unnamed_ns.cout g +:+ "[LOG] ERROR: Invalid input" +:+ endl)
  /\ (data <> "" /\ (String.length data < 100)%nat ->
      unnamed_ns.cout (unnamed_ns.mylib.processData data g)
      = unnamed_ns.cout g +:+ "[LOG] Processing: " +:+ data +:+ endl
        +:+ "[LOG] Attempt 1" +:+ endl +:+ "[LOG] Attempt 2" +:+ endl
        +:+ "[LOG] Attempt 3" +:+ endl).
Proof.
  split; [apply mylib_processData_cache|].
  unfold unnamed_ns.mylib.processData, unnamed_ns.isValidInput.
  split.
  - intros Hbad. repeat case_bool_decide; simpl; try done.
    destruct Hbad; [done|lia].
  - intros [Hne Hlen]. rewrite !bool_decide_eq_false_2 by done.
    rewrite bool_decide_eq_true_2 by done. simpl.
    rewrite !string_append_assoc. reflexivity.
Qed.

(** X12. The cache is the record of the [cacheData] calls: after any
    history of calls it holds what it held before, followed by one entry
    [{key, value, 0}] per [cacheData] call, in call order; [processData]
    calls leave no trace in it. *)
Theorem cache_records_cacheData_calls
    (calls : list mylib_call) (g : unnamed_ns.globals) :
  unnamed_ns.cache (unnamed_run calls g)
  = unnamed_ns.cache g ++ omap cached_entry calls.
Proof.
  unfold unnamed_run. revert g.
  induction calls as [|c calls IH]; intros g; simpl.
  - by rewrite app_nil_r.
  - rewrite IH. destruct c as [data|key value]; simpl.
    + by rewrite mylib_processData_cache.
    + by rewrite <- (assoc_L (++)).
Qed.

Lemma string_append_empty_r (a : string) : a +:+ "" = a.
Proof.
  induction a as [|x a IH]; [reflexivity|].
  change (String x (a +:+ "") = String x a). by rewrite IH.
Qed.

Lemma unnamed_step_text (c : mylib_call) :
  exists text : string,
    forall g : unnamed_ns.globals,
      unnamed_ns.cout (unnamed_step g c) = unnamed_ns.cout g +:+ text.
Proof.
  destruct c as [data|key value]; simpl.
  - destruct (processData_text data) as [text Htext].
    exists text. intros g. apply Htext.
  - eexists. intros g. reflexivity.
Qed.

(** X13. The log only grows, and by a text that the calls alone fix: for
    every history of calls there is one text that the history appends to
    [std::cout], whatever was logged and cached before. *)
Theorem log_is_append_only (calls : list mylib_call) :
  exists text : string,
    forall g : unnamed_ns.globals,
      unnamed_ns.cout (unnamed_run calls g) = unnamed_ns.cout g +:+ text.
Proof.
  unfold unnamed_run. induction calls as [|c calls [rest IH]]; simpl.
  - exists "". intros g. by rewrite string_append_empty_r.
  - destruct (unnamed_step_text c) as [text Htext].
    exists (text +:+ rest). intros g.
    by rewrite IH, Htext, string_append_assoc.
Qed.

(** ** The two [distance] functions on [int] *)

(** X14. [usercode::distance] is symmetric and computes the absolute
    difference whenever that is an [int]; when the difference exceeds
    [INT_MAX] the subtraction overflows, which is undefined. *)
Theorem usercode_distance_is_abs_difference (a b : Z) :
  usercode.distance a b = usercode.distance b a
  /\ ((Z.abs (a - b) <= INT_MAX)%Z ->
      usercode.distance a b = Some (Z.abs (a - b)))
  /\ ((INT_MAX < Z.abs (a - b))%Z -> usercode.distance a b = None).
Proof.
  unfold usercode.distance, int_result, INT_MIN, INT_MAX.
  split; [|split].
  - repeat case_decide; try done; try lia. f_equal. lia.
  - intros Hfit. repeat case_decide; try lia; f_equal; lia.
  - intros Hover. repeat case_decide; try done; lia.
Qed.

(** X15. [myapp::distance], written as [abs(a - b)], agrees with
    [usercode::distance], written with a comparison, on every pair of
    arguments: the same value where the absolute difference is an [int],
    and undefined together where it is not. *)
Theorem myapp_distance_agrees_with_usercode (a b : Z) :
  myapp.distance a b = usercode.distance a b.
Proof.
  unfold myapp.distance, usercode.distance, int_abs, int_result,
    INT_MIN, INT_MAX.
  repeat (case_decide; simpl); try done; try lia; f_equal; lia.
Qed.

Example distance_overflows :
  usercode.distance INT_MIN 1 = None /\ myapp.distance INT_MIN 1 = None
  /\ usercode.distance (-3) 4 = Some 7%Z.
Proof. repeat split; vm_compute; reflexivity. Qed.

(** ** [example4::TextProcessor] *)

Lemma collect_texts_pointees
    (heap : example4.store) (ptrs : list example4.StringPtr)
    (result : list string) :
  forallb (fun ptr : example4.StringPtr =>
             match ptr with
             | Some address => bool_decide (is_Some (heap !! address))
             | None => true
             end) ptrs = true ->
  example4.collect_texts heap ptrs result
  = Some (result ++ omap (example4.pointee heap) ptrs).
Proof.
  revert result. induction ptrs as [|[address|] ptrs IH]; intros result;
    simpl; intros Hown.
  - by rewrite app_nil_r.
  - apply andb_prop in Hown as [Hlive Hown].
    apply bool_decide_eq_true_1 in Hlive as [text Htext].
    rewrite Htext. simpl. rewrite IH by done.
    by rewrite <- (assoc_L (++)).
  - by apply IH.
Qed.

Lemma collect_texts_app
    (heap : example4.store) (ptrs ptrs' : list example4.StringPtr)
    (result : list string) :
  example4.collect_texts heap (ptrs ++ ptrs') result
  = example4.collect_texts heap ptrs result
      ≫= example4.collect_texts heap ptrs'.
Proof.
  revert result. induction ptrs as [|[address|] ptrs IH]; intros result;
    simpl; [done| |done].
  destruct (heap !! address); simpl; [apply IH|done].
Qed.

(** X16. When every pointer held is null or points to a string,
    [getAllTexts] returns the strings the non-null pointers point to at the
    time of the call, in the order the pointers were added; null pointers
    are skipped and never dereferenced. *)
Theorem getAllTexts_returns_pointees
    (heap : example4.store) (tp : example4.TextProcessor) :
  example4.owned heap tp = true ->
  example4.getAllTexts heap tp
  = Some (omap (example4.pointee heap) (example4.texts_ tp)).
Proof.
  intros Hown. unfold example4.getAllTexts.
  by rewrite collect_texts_pointees.
Qed.

Lemma getAllTexts_returns_pointees_witness :
  example4.getAllTexts {[ 1%positive := "one"; 2%positive := "two" ]}
    (example4.addText (Some 1%positive)
       (example4.addText None
          (example4.addText (Some 2%positive) example4.empty)))
  = Some (omap (example4.pointee {[ 1%positive := "one"; 2%positive := "two" ]})
            (example4.texts_
               (example4.addText (Some 1%positive)
                  (example4.addText None
                     (example4.addText (Some 2%positive) example4.empty))))).
Proof.
  apply (getAllTexts_returns_pointees
           {[ 1%positive := "one"; 2%positive := "two" ]}
           (example4.addText (Some 1%positive)
              (example4.addText None
                 (example4.addText (Some 2%positive) example4.empty)))).
  vm_compute. reflexivity.
Defined.

(** X17. What one [addText] changes: adding a null pointer changes nothing
    in what [getAllTexts] returns, and adding a pointer to a string appends
    that string to it. *)
Theorem addText_then_getAllTexts
    (heap : example4.store) (tp : example4.TextProcessor) :
  example4.getAllTexts heap (example4.addText None tp)
  = example4.getAllTexts heap tp
  /\ forall (address : positive) (text : string),
       heap !! address = Some text ->
       example4.getAllTexts heap (example4.addText (Some address) tp)
       = (fun texts => texts ++ [text]) <$> example4.getAllTexts heap tp.
Proof.
  unfold example4.getAllTexts, example4.addText. simpl.
  rewrite !collect_texts_app. split.
  - destruct (example4.collect_texts heap (example4.texts_ tp) []); done.
  - intros address text Htext. rewrite collect_texts_app.
    destruct (example4.collect_texts heap (example4.texts_ tp) []); simpl;
      [|done].
    by rewrite Htext.
Qed.

(** X18. The processor shares its strings: when another owner overwrites
    the string at an address the processor holds, the next [getAllTexts]
    returns the new contents, not the ones the string had when it was
    added. *)
Theorem getAllTexts_sees_later_writes
    (heap : example4.store) (tp : example4.TextProcessor)
    (address : positive) (text : string) :
  example4.owned heap tp = true ->
  Some address ∈ example4.texts_ tp ->
  exists texts : list string,
    example4.getAllTexts (<[address := text]> heap) tp = Some texts
    /\ text ∈ texts.
Proof.
  intros Hown Hin. unfold example4.getAllTexts.
  rewrite collect_texts_pointees.
  - eexists. split; [done|]. simpl.
    apply list_elem_of_omap. exists (Some address). split; [done|].
    unfold example4.pointee. simpl. apply lookup_insert_eq.
  - unfold example4.owned in Hown.
    rewrite forallb_forall in Hown |- *.
    intros [other|] Hother; [|done].
    specialize (Hown _ Hother). simpl in Hown.
    apply bool_decide_eq_true_1 in Hown.
    apply bool_decide_eq_true_2.
    destruct (decide (address = other)) as [->|Hne].
    + rewrite lookup_insert_eq. by eexists.
    + by rewrite lookup_insert_ne.
Qed.

Lemma getAllTexts_sees_later_writes_witness :
  exists texts : list string,
    example4.getAllTexts (<[1%positive := "new"]> {[ 1%positive := "old" ]})
      (example4.addText (Some 1%positive) example4.empty) = Some texts
    /\ "new" ∈ texts.
Proof.
  apply (getAllTexts_sees_later_writes {[ 1%positive := "old" ]}
           (example4.addText (Some 1%positive) example4.empty)
           1%positive "new");
    [vm_compute; reflexivity|compute_done].
Defined.
